(** * pwsave: saved BIP39 passphrases on MicroSD

    A shallow embedding of [shared/pwsave.py] (class [PassphraseSaver]) and
    the properties of its three parts: the hint labels of [make_menu], the
    encrypted file read by [_read] and rewritten by [append], and the
    selection handler [doit]. *)

From stdpp Require Import gmap strings list fin_sets.
From Stdlib Require Import ZArith Ascii.

Local Open Scope string_scope.
Local Open Scope list_scope.
Local Open Scope nat_scope.

(** * Part I: the model *)

(** ** Python values used by the module *)

(** A Python [str] is modelled as a [string]; [len], slicing and
    repetition are the only operations [make_menu] uses. *)

Definition len (s : string) : nat := String.length s.

(** ['*' * k] *)
Fixpoint stars (k : nat) : string :=
  match k with
  | O => ""
  | S k' => String "*"%char (stars k')
  end.

(** [i[0:N]]: the first [N] characters, or all of [i] when it is shorter. *)
Definition slice_to (N : nat) (i : string) : string := String.substring 0 N i.

(** [i[-N:]] for [N >= 1]: the last [N] characters, or all of [i] when it
    is shorter. *)
Definition slice_last (N : nat) (i : string) : string :=
  String.substring (len i - N) N i.

(** [len(i)-N if len(i) > N else 0] *)
Definition masked (N : nat) (i : string) : nat :=
  if decide (N < len i) then len i - N else 0.

(** Byte strings ([bytes], [bytearray]) are lists of integers in
    [0, 256). *)
Abbreviation bytes := (list Z).

(** The values [ujson] reads and writes.  Only integer numbers occur in
    what this module stores. *)
#[local] Unset Elimination Schemes.
Inductive json :=
  | JNull
  | JBool (b : bool)
  | JNum (n : Z)
  | JStr (s : string)
  | JList (l : list json)
  | JDict (d : gmap string json).
#[local] Set Elimination Schemes.

(** Truth value of a parsed document, as tested by [if not data]. *)
Definition truthy (j : json) : bool :=
  match j with
  | JNull => false
  | JBool b => b
  | JNum n => negb (n =? 0)%Z
  | JStr s => negb (bool_decide (s = ""))
  | JList l => negb (bool_decide (length l = 0))
  | JDict d => negb (bool_decide (size d = 0))
  end.

(** One saved entry, [dict(xfp=xfp, pw=bip39pw)]. *)
Record Saved := { xfp : Z; pw : string }.

Definition entry (r : Saved) : json :=
  JDict (<["xfp" := JNum (xfp r)]> (<["pw" := JStr (pw r)]> ∅)).

Definition entries (rs : list Saved) : json := JList (entry <$> rs).

(** The typed view of a stored document that [make_menu] relies on: a
    list of dictionaries with a string under ['pw'] and an integer under
    ['xfp']. *)
Definition as_saved (j : json) : option Saved :=
  match j with
  | JDict d =>
      match d !! "xfp", d !! "pw" with
      | Some (JNum x), Some (JStr s) => Some {| xfp := x; pw := s |}
      | _, _ => None
      end
  | _ => None
  end.

Definition as_saved_list (j : json) : option (list Saved) :=
  match j with
  | JList l => mapM as_saved l
  | _ => None
  end.

(** ** Exceptions *)

Inductive exn :=
  | CardMissingError
  | OSError
  | TypeError
  | ValueError
  | AttributeError
  | IndexError
  | AssertionError.

Inductive result (A : Type) :=
  | Ok (a : A)
  | Raise (e : exn).
Arguments Ok {A} a.
Arguments Raise {A} e.

Global Instance exn_eq_dec : EqDecision exn.
Proof. solve_decision. Defined.

(** [data.append(x)]: only a list has the method. *)
Definition list_append (data x : json) : result json :=
  match data with
  | JList l => Ok (JList (l ++ [x]))
  | _ => Raise AttributeError
  end.

(** ** The hint labels of [make_menu] *)

Module Hint.

(** The two comprehensions of the loop body, one element each. *)
Definition prefix_part (N : nat) (i : string) : string :=
  slice_to N i +:+ stars (masked N i).

Definition suffix_part (N : nat) (i : string) : string :=
  stars (masked N i) +:+ slice_last N i.

Inductive variant := Prefix | Suffix.

Definition part (v : variant) (N : nat) : string → string :=
  match v with
  | Prefix => prefix_part N
  | Suffix => suffix_part N
  end.

Definition parts_of (v : variant) (N : nat) (pws : list string) : list string :=
  part v N <$> pws.

(** [len(set(parts)) == len(pws)] *)
Definition all_unique (parts pws : list string) : bool :=
  bool_decide (size (list_to_set parts : gset string) = length pws).

(** [for N in ...: ... break ... else: parts = pws], over the values of
    [N] still to be tried. *)
Fixpoint hint_loop (Ns : list nat) (pws : list string) : list string :=
  match Ns with
  | [] => pws
  | N :: rest =>
      let parts := parts_of Prefix N pws in
      if all_unique parts pws then parts else
      let parts := parts_of Suffix N pws in
      if all_unique parts pws then parts else
      hint_loop rest pws
  end.

(** [range(1, 8)] *)
Definition range_1_8 : list nat := seq 1 7.

Definition hints (pws : list string) : list string :=
  hint_loop range_1_8 pws.

(** [(N', v')] is tried before [(N, v)]. *)
Definition earlier (N' : nat) (v' : variant) (N : nat) (v : variant) : Prop :=
  N' < N ∨ (N' = N ∧ v' = Prefix ∧ v = Suffix).

(** The loop that fills [pws]: the secrets of [data] in order, each
    kept the first time it is seen. *)
Fixpoint collect (data : list Saved) (pws : list string) : list string :=
  match data with
  | [] => pws
  | i :: rest =>
      let p := pw i in
      if decide (p ∈ pws) then collect rest pws else collect rest (pws ++ [p])
  end.

Definition pws_of (data : list Saved) : list string := collect data [].

(** The labels of the menu built from [data]. *)
Definition labels (data : list Saved) : list string := hints (pws_of data).

End Hint.

(** ** The collaborators *)

(** The application-wide settings this module touches. *)
Record Settings := { settings_xfp : Z; settings_b39skip : bool }.

(** What the module imports and the sources do not define.  [keystream
    key p] is byte [p] of the AES counter-mode key stream under [key],
    counted from the initial counter of a cipher object built without an
    IV; [dumps] and [loads] are [ujson]'s; [encryption_key] is
    [stash.SensitiveValues(bypass_pw=True).encryption_key];
    [set_bip39_passphrase] is [seed]'s, returning an error message or
    nothing, and changing the active identity; [xfp2str] is [utils]'. *)
Class Platform := {
  keystream : bytes → nat → Z;
  dumps : json → bytes;
  loads : bytes → result json;
  encryption_key : bytes → result bytes;
  set_bip39_passphrase : string → Settings → option string * Settings;
  xfp2str : Z → string;
}.

(** What the display, the menu system and [seed] are asked to do, in
    order. *)
Inductive event :=
  | Fullscreen (msg : string)
  | DramaticPause (msg : string) (secs : nat)
  | NeedsMicrosd
  | ShowStory (msg title : string)
  | SetPassphrase (secret : string)
  | GotoTopMenu.

(** The MicroSD card: [get_sd_root()], [get_id_hash()] and its files. *)
Record Card := {
  sd_root : string;
  id_hash : result bytes;
  files : gmap string bytes;
}.

(** [self.key] is [None] when it is unset or was set to [None]. *)
Record state := {
  self_key : option bytes;
  card : Card;
  settings : Settings;
  trace : list event;
}.

Definition set_key (k : option bytes) (st : state) : state :=
  {| self_key := k; card := card st; settings := settings st; trace := trace st |}.

Definition set_files (fs : gmap string bytes) (st : state) : state :=
  {| self_key := self_key st;
     card := {| sd_root := sd_root (card st); id_hash := id_hash (card st); files := fs |};
     settings := settings st; trace := trace st |}.

Definition set_settings (s : Settings) (st : state) : state :=
  {| self_key := self_key st; card := card st; settings := s; trace := trace st |}.

Definition log (ev : event) (st : state) : state :=
  {| self_key := self_key st; card := card st; settings := settings st;
     trace := trace st ++ [ev] |}.

(** ** State and exceptions *)

Definition M (A : Type) : Type := state → result A * state.

Global Instance M_ret : MRet M := λ A a st, (Ok a, st).
Global Instance M_bind : MBind M := λ A B f m st,
  match m st with
  | (Ok a, st') => f a st'
  | (Raise e, st') => (Raise e, st')
  end.

Definition raise {A} (e : exn) : M A := λ st, (Raise e, st).
Definition lift {A} (r : result A) : M A := λ st, (r, st).
Definition gets {A} (f : state → A) : M A := λ st, (Ok (f st), st).
Definition modify (f : state → state) : M unit := λ st, (Ok (), f st).
Definition emit (ev : event) : M unit := modify (log ev).

(** [try: m  except: h], the bare [except] that catches everything. *)
Definition try_except {A} (m h : M A) : M A := λ st,
  match m st with
  | (Ok a, st') => (Ok a, st')
  | (Raise _, st') => h st'
  end.

(** [try: m  except CardMissingError: h] *)
Definition try_except_missing {A} (m h : M A) : M A := λ st,
  match m st with
  | (Raise CardMissingError, st') => h st'
  | r => r
  end.

(** [assert b] *)
Definition assert (b : bool) : M unit :=
  if b then mret () else raise AssertionError.

(** ** [tcc.AES] in counter mode *)

Inductive direction := Encrypt | Decrypt.

(** A cipher object: its key and how many key-stream bytes it has used. *)
Record AES := { aes_dir : direction; aes_key : bytes; aes_pos : nat }.

(** [tcc.AES(tcc.AES.CTR | dir, key)]: the key must be a buffer of 16, 24
    or 32 bytes; no IV is passed, the counter starts at its initial
    value. *)
Definition AES_new (dir : direction) (key : option bytes) : result AES :=
  match key with
  | None => Raise TypeError
  | Some k =>
      if bool_decide (length k = 16 ∨ length k = 24 ∨ length k = 32)
      then Ok {| aes_dir := dir; aes_key := k; aes_pos := 0 |}
      else Raise ValueError
  end.

Section WithPlatform.
Context `{Platform}.

Fixpoint ctr_xor (key : bytes) (p : nat) (msg : bytes) : bytes :=
  match msg with
  | [] => []
  | b :: rest => Z.lxor b (keystream key p) :: ctr_xor key (S p) rest
  end.

(** [cipher.update(msg)]: counter mode is the same XOR in both
    directions. *)
Definition AES_update (c : AES) (msg : bytes) : AES * bytes :=
  ({| aes_dir := aes_dir c; aes_key := aes_key c;
      aes_pos := aes_pos c + length msg |},
   ctr_xor (aes_key c) (aes_pos c) msg).

(** ** [PassphraseSaver] *)

Definition filename (c : Card) : string := sd_root c +:+ "/.fseventsd.".

(** A [bytearray] is true when it is not empty. *)
Definition key_set (k : option bytes) : bool :=
  match k with
  | Some (_ :: _) => true
  | _ => false
  end.

(** The [try] block of [_calc_key]. *)
Definition derive_key (c : Card) : result bytes :=
  match id_hash c with
  | Raise e => Raise e
  | Ok salt =>
      match encryption_key salt with
      | Raise e => Raise e
      | Ok key =>
          if bool_decide (length key = 32) then Ok key
          else Raise AssertionError
      end
  end.

Definition _calc_key : M unit := λ st,
  if key_set (self_key st) then (Ok (), st)
  else match derive_key (card st) with
       | Ok key => (Ok (), set_key (Some key) st)
       | Raise _ => (Ok (), set_key None st)
       end.

(** [open(path, 'rb').read()] *)
Definition read_file (path : string) : M bytes := λ st,
  match files (card st) !! path with
  | Some b => (Ok b, st)
  | None => (Raise OSError, st)
  end.

(** [with open(path, 'wb') as fd: fd.write(msg)] *)
Definition write_file (path : string) (msg : bytes) : M unit :=
  modify (λ st, set_files (<[path := msg]> (files (card st))) st).

Definition _read : M json :=
  key ← gets self_key;
  decrypt ← lift (AES_new Decrypt key);
  try_except
    (path ← gets (λ st, filename (card st));
     msg ← read_file path;
     let txt := (AES_update decrypt msg).2 in
     lift (loads txt))
    (mret (JList [])).

(** ** [append] *)

(** One pass through the loop of [append], as the card and the user
    make it go: the card is there, or it is not and the user then answers
    the [needs_microsd] prompt with the key [ch]. *)
Inductive slot := CardPresent | CardAbsent (ch : string).

(** Modelled from the spec: [files.CardSlot] and [CardMissingError] are
    not among the sources.  The storage medium is a collaborator with
    scoped acquire/release semantics and a distinct 'medium missing'
    condition: entering [with CardSlot() as card] gives the card or
    raises [CardMissingError], and the caller then retries the whole
    operation from scratch. *)
Definition with_CardSlot {A} (s : slot) (body : M A) : M A :=
  match s with
  | CardPresent => body
  | CardAbsent _ => raise CardMissingError
  end.

(** Modelled from the spec: [actions.needs_microsd] is not among the
    sources; it is the user-facing prompt to reinsert, with an explicit
    cancel escape, and returns the key pressed. *)
Definition needs_microsd (s : slot) : M string :=
  emit NeedsMicrosd;;
  mret (match s with CardAbsent ch => ch | CardPresent => "" end).

(** Lines 59 and 61: [self._calc_key(card)] and
    [data = self._read(card) if self.key else []]. *)
Definition read_all : M json :=
  _calc_key;;
  key ← gets self_key;
  if key_set key then _read else mret (JList []).

(** Lines 65 to 70: encrypt the whole document with a new cipher
    object and replace the file with the result. *)
Definition write_all (data : json) : M unit :=
  key ← gets self_key;
  encrypt ← lift (AES_new Encrypt key);
  let msg := (AES_update encrypt (dumps data)).2 in
  path ← gets (λ st, filename (card st));
  write_file path msg.

(** The body of the [with] block, lines 59 to 70. *)
Definition append_body (r : Saved) : M unit :=
  data ← read_all;
  data ← lift (list_append data (entry r));
  write_all data.

(** How a call of [append] ends: by the [return] after "Saved.", by the
    [break] of the escape route, or not yet, when the script of card
    events is used up and the loop is still waiting. *)
Inductive outcome := Stored | GaveUp | Waiting.

Fixpoint append (script : list slot) (r : Saved) : M outcome :=
  match script with
  | [] => mret Waiting
  | s :: rest =>
      emit (Fullscreen "Saving...");;
      try_except_missing
        (with_CardSlot s (append_body r);;
         emit (DramaticPause "Saved." 2);;
         mret Stored)
        (ch ← needs_microsd s;
         if decide (ch = "x") then mret GaveUp else append rest r)
  end.

(** Calls of [append] one after the other, each with its own script
    of card events, for as long as each ends by its [return]. *)
Fixpoint append_each (ops : list (list slot * Saved)) : M bool :=
  match ops with
  | [] => mret true
  | (script, r) :: rest =>
      o ← append script r;
      match o with
      | Stored => append_each rest
      | _ => mret false
      end
  end.

(** The script gets to a pass with the card in place: every prompt
    before it is answered with a key other than ['x']. *)
Fixpoint reaches_card (script : list slot) : bool :=
  match script with
  | [] => false
  | CardPresent :: _ => true
  | CardAbsent ch :: rest => negb (bool_decide (ch = "x")) && reaches_card rest
  end.

(** The value of [self.key] once [_calc_key] has run. *)
Definition current_key (st : state) : option bytes :=
  self_key (_calc_key st).2.

(** The vault file of the card in [st]. *)
Definition vault (st : state) : option bytes :=
  files (card st) !! filename (card st).

(** What [_read] makes of the vault file under the key [k]: the parsed
    document, or the empty list when the file is missing or does not
    parse. *)
Definition document (k : bytes) (st : state) : json :=
  match vault st with
  | None => JList []
  | Some blob =>
      match loads (ctr_xor k 0 blob) with
      | Ok j => j
      | Raise _ => JList []
      end
  end.

(** ** [make_menu] *)

(** [os.stat(path)] succeeds. *)
Definition file_exists (path : string) (st : state) : bool :=
  bool_decide (is_Some (files (card st) !! path)).

(** [make_menu] in two parts.  The first, up to line 106: the stored
    document, or nothing when there is no menu to show. *)
Definition make_menu_data (s : slot) : M (option json) :=
  try_except_missing
    (with_CardSlot s
       (path ← gets (λ st, filename (card st));
        found ← gets (file_exists path);
        if negb found then mret None else
        _calc_key;;
        key ← gets self_key;
        if negb (key_set key) then mret None else
        data ← _read;
        if negb (truthy data) then mret None else
        mret (Some data)))
    (mret None).

(** [data[idx]] *)
Definition index (data : list Saved) (idx : nat) : M Saved :=
  match data !! idx with
  | Some d => mret d
  | None => raise IndexError
  end.

Definition ux_show_story (msg title : string) : M unit :=
  emit (ShowStory msg title).

(** [err = set_bip39_passphrase(secret)] *)
Definition apply_passphrase (secret : string) : M (option string) := λ st,
  let '(err, s) := set_bip39_passphrase secret (settings st) in
  (Ok err, log (SetPassphrase secret) (set_settings s st)).

(** [if err:] *)
Definition is_error (err : option string) : bool :=
  match err with
  | Some e => negb (bool_decide (e = ""))
  | None => false
  end.

(** The selection handler, closed over [data]. *)
Definition doit (data : list Saved) (idx : nat) : M unit :=
  d ← index data idx;
  err ← apply_passphrase (pw d);
  if is_error err then ux_show_story (default "" err) "Fail" else
  xfp_now ← gets (λ st, settings_xfp (settings st));
  skip ← gets (λ st, settings_b39skip (settings st));
  (if negb skip
   then modify (λ st, set_settings
                  {| settings_xfp := settings_xfp (settings st);
                     settings_b39skip := true |} st)
   else mret ());;
  d' ← index data idx;
  assert (bool_decide (xfp_now = xfp d'));;
  ux_show_story "Passphrase restored." ("[" +:+ xfp2str xfp_now +:+ "]");;
  emit GotoTopMenu.

(** The second part of [make_menu]: [MenuItem(label, f=doit)] for each
    label, and the [MenuSystem] over them. *)
Record MenuItem := { label : string; f : nat → M unit }.

Definition make_menu_items (data : list Saved) : list MenuItem :=
  (λ l, {| label := l; f := doit data |}) <$> Hint.labels data.

(** Modelled from the spec: [menu.MenuSystem] is not among the sources;
    the menu collaborator builds a selectable list from (label, index)
    pairs and invokes a callback with the selected index. *)
Definition select (menu : list MenuItem) (idx : nat) : M unit :=
  match menu !! idx with
  | Some item => f item idx
  | None => raise IndexError
  end.

(** The secret the label at [idx] was made from. *)
Definition labelled_secret (data : list Saved) (idx : nat) : option string :=
  Hint.pws_of data !! idx.

(** The secret [doit] passes on for [idx]. *)
Definition applied_secret (data : list Saved) (idx : nat) : option string :=
  pw <$> data !! idx.

End WithPlatform.

(** ** A concrete platform

    A small stand-in for the collaborators, on which the model can be
    run: a key stream that depends on key and position, a length-prefixed
    encoding of entry lists in place of JSON text, and an identity that
    is a function of the passphrase. *)

Module Sample.

Definition sum_bytes (b : bytes) : Z := foldr Z.add 0%Z b.

Definition sample_keystream (key : bytes) (p : nat) : Z :=
  ((sum_bytes key + 7 * Z.of_nat p + 1) mod 256)%Z.

Fixpoint codes (s : string) : bytes :=
  match s with
  | EmptyString => []
  | String c s' => Z.of_N (Ascii.N_of_ascii c) :: codes s'
  end.

Fixpoint uncodes (b : bytes) : string :=
  match b with
  | [] => EmptyString
  | z :: b' => String (Ascii.ascii_of_N (Z.to_N z)) (uncodes b')
  end.

Definition be32 (x : Z) : bytes :=
  [(x / 16777216) mod 256; (x / 65536) mod 256; (x / 256) mod 256; x mod 256]%Z.

Definition dump_entry (j : json) : option bytes :=
  r ← as_saved j;
  Some (be32 (xfp r) ++ [Z.of_nat (len (pw r))] ++ codes (pw r)).

Definition sample_dumps (j : json) : bytes :=
  match j with
  | JList l => default [255%Z] (mjoin <$> mapM dump_entry l)
  | _ => [255%Z]
  end.

Fixpoint parse (fuel : nat) (b : bytes) : result (list json) :=
  match b with
  | [] => Ok []
  | b3 :: b2 :: b1 :: b0 :: n :: rest =>
      match fuel with
      | O => Raise ValueError
      | S fuel' =>
          let n := Z.to_nat n in
          if decide (n ≤ length rest) then
            match parse fuel' (drop n rest) with
            | Ok l =>
                Ok (entry {| xfp := ((b3 * 256 + b2) * 256 + b1) * 256 + b0;
                             pw := uncodes (take n rest) |} :: l)
            | Raise e => Raise e
            end
          else Raise ValueError
      end
  | _ => Raise ValueError
  end.

Definition sample_loads (b : bytes) : result json :=
  match parse (length b) b with
  | Ok l => Ok (JList l)
  | Raise e => Raise e
  end.

Definition sample_encryption_key (salt : bytes) : result bytes :=
  Ok (replicate 32 (sum_bytes salt mod 256)%Z).

Definition sample_set_passphrase (secret : string) (s : Settings)
  : option string * Settings :=
  (None, {| settings_xfp := Z.of_nat (len secret);
            settings_b39skip := settings_b39skip s |}).

#[export] Instance platform : Platform := {|
  keystream := sample_keystream;
  dumps := sample_dumps;
  loads := sample_loads;
  encryption_key := sample_encryption_key;
  set_bip39_passphrase := sample_set_passphrase;
  xfp2str := λ _, "0F056943";
|}.

(** A card with no vault file and a saver that has no key yet. *)
Definition blank_card : Card :=
  {| sd_root := "/sd"; id_hash := Ok [17; 42; 99]%Z; files := ∅ |}.

Definition fresh : state :=
  {| self_key := None; card := blank_card;
     settings := {| settings_xfp := 5; settings_b39skip := false |};
     trace := [] |}.

(** A card whose identity cannot be read, so that no key can be
    derived. *)
Definition keyless : state :=
  {| self_key := None;
     card := {| sd_root := "/sd"; id_hash := Raise OSError; files := ∅ |};
     settings := {| settings_xfp := 5; settings_b39skip := false |};
     trace := [] |}.

(** A card whose vault file does not decrypt to a document. *)
Definition garbled : state :=
  {| self_key := None;
     card := {| sd_root := "/sd"; id_hash := Ok [17; 42; 99]%Z;
                files := {[ "/sd/.fseventsd." := [1; 2; 3]%Z ]} |};
     settings := {| settings_xfp := 5; settings_b39skip := false |};
     trace := [] |}.

(** The key of [blank_card] under [platform], and a saver that holds
    it. *)
Definition card_key : bytes := replicate 32 158%Z.

Definition keyed : state := set_key (Some card_key) fresh.

Definition keyed_garbled : state := set_key (Some card_key) garbled.

Definition alpha : Saved := {| xfp := 5; pw := "alpha" |}.
Definition bravo : Saved := {| xfp := 5; pw := "bravo" |}.
Definition other : Saved := {| xfp := 7; pw := "abc" |}.

End Sample.

(** ** Further definitions *)

(** The characters of a string, one by one. *)
Abbreviation chars := String.list_ascii_of_string.

(** Two more stand-ins for the collaborators, and a card that holds a
    file of its own next to the vault. *)
Module Variants.

(** As [Sample.platform], with a parser that reads every text as the
    number 7. *)
Definition scalar : Platform := {|
  keystream := Sample.sample_keystream;
  dumps := Sample.sample_dumps;
  loads := λ _, Ok (JNum 7);
  encryption_key := Sample.sample_encryption_key;
  set_bip39_passphrase := Sample.sample_set_passphrase;
  xfp2str := λ _, "0F056943";
|}.

(** As [Sample.platform], with a seed that takes no passphrase. *)
Definition refusing : Platform := {|
  keystream := Sample.sample_keystream;
  dumps := Sample.sample_dumps;
  loads := Sample.sample_loads;
  encryption_key := Sample.sample_encryption_key;
  set_bip39_passphrase := λ _ s, (Some "No BIP39 seed", s);
  xfp2str := λ _, "0F056943";
|}.

Definition shared : state :=
  {| self_key := None;
     card := {| sd_root := "/sd"; id_hash := Ok [17; 42; 99]%Z;
                files := {[ "/sd/notes.txt" := [104; 105]%Z ]} |};
     settings := {| settings_xfp := 5; settings_b39skip := false |};
     trace := [] |}.

End Variants.

(** * Part II: properties *)

(** ** The hint labels *)

Section HintProperties.
Import Hint.

Lemma size_list_to_set_le (l : list string) :
  size (list_to_set l : gset string) ≤ length l.
Proof.
  induction l as [|x l IH].
  - by rewrite list_to_set_nil, size_empty.
  - rewrite list_to_set_cons. cbn [length].
    etrans; [apply Nat.eq_le_incl, size_union_alt|].
    rewrite size_singleton.
    assert (size (list_to_set l ∖ {[x]} : gset string)
            ≤ size (list_to_set l : gset string)).
    { apply subseteq_size, subseteq_difference_l. done. }
    lia.
Qed.

Lemma size_list_to_set_NoDup (l : list string) :
  size (list_to_set l : gset string) = length l ↔ NoDup l.
Proof.
  split; [|apply size_list_to_set].
  induction l as [|x l IH]; intros Hsz; [constructor|].
  rewrite list_to_set_cons in Hsz. cbn [length] in Hsz.
  pose proof (size_list_to_set_le l) as Hle.
  destruct (decide (x ∈ l)) as [Hin|Hnin].
  - assert ({[x]} ∪ list_to_set l = (list_to_set l : gset string)) as Heq.
    { apply subseteq_union_1_L, singleton_subseteq_l, elem_of_list_to_set, Hin. }
    rewrite Heq in Hsz. lia.
  - rewrite size_union, size_singleton in Hsz.
    + constructor; [done|]. apply IH. lia.
    + apply disjoint_singleton_l. by rewrite elem_of_list_to_set.
Qed.

Lemma all_unique_NoDup (f : string → string) (pws : list string) :
  all_unique (f <$> pws) pws = true ↔ NoDup (f <$> pws).
Proof.
  unfold all_unique. rewrite bool_decide_eq_true.
  rewrite <- size_list_to_set_NoDup. by rewrite length_fmap.
Qed.

Lemma all_unique_not_NoDup (f : string → string) (pws : list string) :
  all_unique (f <$> pws) pws = false ↔ ¬ NoDup (f <$> pws).
Proof.
  rewrite <- all_unique_NoDup. destruct (all_unique _ _); naive_solver.
Qed.

(** What the loop computes, for any run [a, a+1, ..., a+n-1] of values
    of [N]: the labels of the first combination that passes the test,
    or the secrets themselves when none does. *)
Lemma hint_loop_seq (n a : nat) (pws : list string) :
  (∃ N v, a ≤ N < a + n
      ∧ hint_loop (seq a n) pws = part v N <$> pws
      ∧ NoDup (part v N <$> pws)
      ∧ ∀ N' v', a ≤ N' → earlier N' v' N v → ¬ NoDup (part v' N' <$> pws))
  ∨ (hint_loop (seq a n) pws = pws
      ∧ ∀ N v, a ≤ N < a + n → ¬ NoDup (part v N <$> pws)).
Proof.
  revert a. induction n as [|n IH]; intros a; simpl.
  - right. split; [done|]. intros; lia.
  - unfold parts_of.
    destruct (all_unique (part Prefix a <$> pws) pws) eqn:Hp.
    { left. exists a, Prefix. apply all_unique_NoDup in Hp.
      split; [lia|]. split; [done|]. split; [done|].
      intros N' v' Hle [Hlt|(_ & _ & Hv)]; [lia|done]. }
    apply all_unique_not_NoDup in Hp.
    destruct (all_unique (part Suffix a <$> pws) pws) eqn:Hs.
    { left. exists a, Suffix. apply all_unique_NoDup in Hs.
      split; [lia|]. split; [done|]. split; [done|].
      intros N' v' Hle [Hlt|(-> & -> & _)]; [lia|done]. }
    apply all_unique_not_NoDup in Hs.
    destruct (IH (S a)) as [(N & v & HN & Heq & Hnd & Hmin)|[Heq Hnone]].
    + left. exists N, v. split; [lia|]. split; [done|]. split; [done|].
      intros N' v' Hle Hearlier.
      destruct (decide (N' = a)) as [->|Hne].
      * by destruct v'.
      * apply Hmin; [lia|done].
    + right. split; [done|]. intros N v HN.
      destruct (decide (N = a)) as [->|Hne].
      * by destruct v.
      * apply Hnone. lia.
Qed.

(** C2.  For pairwise-distinct secrets the labels are as many as the
    secrets, in the secrets' order (label [i] is made from secret [i]),
    and pairwise distinct; they are the fragments of one combination of
    [N] in 1..7 and variant that passes the test, and the loop falls
    through to the secrets themselves, unmasked, only in the case where
    no combination with [N] in 1..7 gives distinct fragments. *)
Theorem C2_hints_distinct (pws : list string) :
  NoDup pws →
  length (hints pws) = length pws
  ∧ NoDup (hints pws)
  ∧ ((∃ N v, 1 ≤ N ≤ 7
        ∧ NoDup (part v N <$> pws)
        ∧ hints pws = part v N <$> pws)
     ∨ ((∀ N v, 1 ≤ N ≤ 7 → ¬ NoDup (part v N <$> pws))
        ∧ hints pws = pws)).
Proof.
  intros Hpws. unfold hints, range_1_8.
  destruct (hint_loop_seq 7 1 pws) as [(N & v & HN & -> & Hnd & _)|[-> Hnone]].
  - split; [by rewrite length_fmap|]. split; [done|].
    left. exists N, v. split; [lia|done].
  - split; [done|]. split; [done|].
    right. split; [|done]. intros N v HN. apply Hnone. lia.
Qed.

Lemma C2_hints_distinct_witness :
  length (hints ["alpha"; "apple"; "azure"]) = 3
  ∧ NoDup (hints ["alpha"; "apple"; "azure"])
  ∧ ((∃ N v, 1 ≤ N ≤ 7
        ∧ NoDup (part v N <$> ["alpha"; "apple"; "azure"])
        ∧ hints ["alpha"; "apple"; "azure"]
          = part v N <$> ["alpha"; "apple"; "azure"])
     ∨ ((∀ N v, 1 ≤ N ≤ 7 → ¬ NoDup (part v N <$> ["alpha"; "apple"; "azure"]))
        ∧ hints ["alpha"; "apple"; "azure"] = ["alpha"; "apple"; "azure"])).
Proof.
  apply (C2_hints_distinct ["alpha"; "apple"; "azure"]).
  apply (bool_decide_unpack _). vm_compute. exact I.
Defined.

(** C3.  When some [N] in 1..7 gives pairwise-distinct fragments, the
    labels are the fragments of one combination [(N, v)] with [N] in
    1..7 such that no combination tried before it passes the test: no
    smaller [N] with either variant, and not the prefix variant at the
    same [N] when the suffix variant is the one used. *)
Theorem C3_hints_minimal (pws : list string) :
  (∃ N v, 1 ≤ N ≤ 7 ∧ NoDup (part v N <$> pws)) →
  ∃ N v, 1 ≤ N ≤ 7
    ∧ hints pws = part v N <$> pws
    ∧ NoDup (part v N <$> pws)
    ∧ ∀ N' v', 1 ≤ N' → earlier N' v' N v → ¬ NoDup (part v' N' <$> pws).
Proof.
  intros (N0 & v0 & HN0 & Hnd0). unfold hints, range_1_8.
  destruct (hint_loop_seq 7 1 pws) as [(N & v & HN & Heq & Hnd & Hmin)|[_ Hnone]].
  - exists N, v. split; [lia|done].
  - destruct (Hnone N0 v0); [lia|done].
Qed.

Lemma C3_hints_minimal_witness :
  ∃ N v, 1 ≤ N ≤ 7
    ∧ hints ["abc1"; "abc2"] = part v N <$> ["abc1"; "abc2"]
    ∧ NoDup (part v N <$> ["abc1"; "abc2"])
    ∧ ∀ N' v', 1 ≤ N' → earlier N' v' N v
        → ¬ NoDup (part v' N' <$> ["abc1"; "abc2"]).
Proof.
  apply (C3_hints_minimal ["abc1"; "abc2"]).
  exists 1, Suffix. split; [lia|].
  apply (bool_decide_unpack _). vm_compute. exact I.
Defined.

(** The secrets that [make_menu] collects are pairwise distinct, so its
    labels are. *)
Lemma collect_NoDup (data : list Saved) (acc : list string) :
  NoDup acc → NoDup (collect data acc).
Proof.
  revert acc. induction data as [|i data IH]; intros acc Hacc; cbn; [done|].
  destruct (decide (pw i ∈ acc)) as [Hin|Hnin]; apply IH; [done|].
  apply NoDup_app. split; [done|]. split; [|apply NoDup_singleton].
  intros x Hx ->%list_elem_of_singleton. done.
Qed.

Lemma labels_distinct (data : list Saved) :
  length (labels data) = length (pws_of data) ∧ NoDup (labels data).
Proof.
  unfold labels, hints, range_1_8. pose proof (collect_NoDup data [] (NoDup_nil_2)).
  destruct (hint_loop_seq 7 1 (pws_of data)) as [(N & v & _ & -> & Hnd & _)|[-> _]].
  - by rewrite length_fmap.
  - done.
Qed.

Example hints_alpha :
  hints ["alpha"; "apple"; "azure"] = ["al***"; "ap***"; "az***"].
Proof. vm_compute. reflexivity. Qed.

Example hints_single : hints ["correct horse"] = ["c************"].
Proof. vm_compute. reflexivity. Qed.

Example hints_suffix : hints ["abc1"; "abc2"] = ["***1"; "***2"].
Proof. vm_compute. reflexivity. Qed.

Example hints_short : hints ["a"; "abcdefghi"] = ["a"; "a********"].
Proof. vm_compute. reflexivity. Qed.

Example hints_give_up :
  hints ["aaaaaaaaXaaaaaaaa"; "aaaaaaaaYaaaaaaaa"]
  = ["aaaaaaaaXaaaaaaaa"; "aaaaaaaaYaaaaaaaa"].
Proof. vm_compute. reflexivity. Qed.

End HintProperties.

(** ** The cipher and the vault file *)

(** Unfolds the plumbing of [M] in the goal, leaving the operations of
    the module folded. *)
Ltac run_M :=
  repeat progress
    (unfold mbind, M_bind, mret, M_ret, gets, lift, modify, emit, raise,
       try_except, try_except_missing, needs_microsd, with_CardSlot,
       ux_show_story;
     cbn -[decide append key_set _read document read_all write_all
           append_body _calc_key doit]).

Section StorageProperties.
Context `{Platform}.

Lemma ctr_xor_involutive (key : bytes) (p : nat) (msg : bytes) :
  ctr_xor key p (ctr_xor key p msg) = msg.
Proof.
  revert p. induction msg as [|b msg IH]; intros p; simpl; [done|].
  rewrite IH. f_equal.
  by rewrite Z.lxor_assoc, Z.lxor_nilpotent, Z.lxor_0_r.
Qed.

Lemma ctr_xor_length (key : bytes) (p : nat) (msg : bytes) :
  length (ctr_xor key p msg) = length msg.
Proof. revert p. induction msg; intros p; simpl; [done|]. by rewrite IHmsg. Qed.

(** With the counter started at the same place each time, equal
    beginnings of two plaintexts give equal beginnings of the two
    ciphertexts. *)
Lemma ctr_xor_take (key : bytes) (p n : nat) (msg : bytes) :
  take n (ctr_xor key p msg) = ctr_xor key p (take n msg).
Proof.
  revert p n. induction msg as [|b msg IH]; intros p [|n]; simpl; try done.
  by rewrite IH.
Qed.

Lemma ctr_xor_equal_prefix (key : bytes) (n : nat) (msg1 msg2 : bytes) :
  take n msg1 = take n msg2 →
  take n (ctr_xor key 0 msg1) = take n (ctr_xor key 0 msg2).
Proof. intros Heq. by rewrite !ctr_xor_take, Heq. Qed.

Lemma AES_new_32 (dir : direction) (k : bytes) :
  length k = 32 →
  AES_new dir (Some k) = Ok {| aes_dir := dir; aes_key := k; aes_pos := 0 |}.
Proof.
  intros Hk. unfold AES_new. rewrite bool_decide_eq_true_2; [done|auto].
Qed.

Lemma key_set_32 (k : bytes) : length k = 32 → key_set (Some k) = true.
Proof. by destruct k. Qed.

Lemma _read_document (st : state) (k : bytes) :
  self_key st = Some k → length k = 32 →
  _read st = (Ok (document k st), st).
Proof.
  intros Hkey Hk. unfold _read, document, vault, mbind, M_bind, gets, lift,
    try_except, read_file, mret, M_ret.
  cbn. rewrite Hkey, (AES_new_32 _ _ Hk). cbn.
  destruct (files (card st) !! filename (card st)) as [blob|]; [|done].
  by destruct (loads (ctr_xor k 0 blob)).
Qed.

(** The state after [write_all data] under key [k]. *)
Lemma write_all_run (st : state) (k : bytes) (data : json) :
  self_key st = Some k → length k = 32 →
  write_all data st
  = (Ok (), set_files (<[filename (card st) := ctr_xor k 0 (dumps data)]>
                         (files (card st))) st).
Proof.
  intros Hkey Hk. unfold write_all, mbind, M_bind, gets, lift, write_file, modify.
  cbn. by rewrite Hkey, (AES_new_32 _ _ Hk).
Qed.

Lemma vault_set_files (st : state) (blob : bytes) :
  vault (set_files (<[filename (card st) := blob]> (files (card st))) st)
  = Some blob.
Proof. unfold vault. cbn. apply lookup_insert_eq. Qed.

Lemma _calc_key_run (st : state) (k : bytes) :
  current_key st = Some k →
  _calc_key st = (Ok (), set_key (Some k) st).
Proof.
  unfold current_key, _calc_key. destruct st as [key c s t]; cbn.
  destruct (key_set key); cbn; [by intros ->|].
  destruct (derive_key c); cbn; [|done]. by intros [= ->].
Qed.

Lemma _calc_key_none (st : state) :
  current_key st = None →
  _calc_key st = (Ok (), set_key None st).
Proof.
  unfold current_key, _calc_key. destruct st as [key c s t]; cbn.
  destruct (key_set key) eqn:Hset; cbn.
  - intros ->. done.
  - by destruct (derive_key c).
Qed.

Lemma read_all_run (st : state) (k : bytes) :
  current_key st = Some k → length k = 32 →
  read_all st = (Ok (document k st), set_key (Some k) st).
Proof.
  intros Hcur Hk. unfold read_all, mbind, M_bind, gets.
  rewrite (_calc_key_run _ _ Hcur). cbn -[key_set _read document].
  rewrite (key_set_32 _ Hk).
  by rewrite (_read_document _ k) by done.
Qed.

Lemma append_body_run (st : state) (k : bytes) (l : list json) (r : Saved) :
  current_key st = Some k → length k = 32 →
  document k st = JList l →
  append_body r st
  = (Ok (), set_files (<[filename (card st)
                         := ctr_xor k 0 (dumps (JList (l ++ [entry r])))]>
                         (files (card st)))
              (set_key (Some k) st)).
Proof.
  intros Hcur Hk Hdoc. unfold append_body, mbind at 1, M_bind at 1.
  rewrite (read_all_run _ _ Hcur Hk), Hdoc.
  unfold mbind, M_bind, lift. cbn.
  by rewrite (write_all_run _ k) by done.
Qed.

(** A prompt answered with a key other than ['x'] leads to another
    pass; nothing but the display has changed. *)
Lemma append_retry (script : list slot) (ch : string) (r : Saved) (st : state) :
  ch ≠ "x" →
  append (CardAbsent ch :: script) r st
  = append script r (log NeedsMicrosd (log (Fullscreen "Saving...") st)).
Proof.
  intros Hch. cbn [append]. run_M. by rewrite decide_False by done.
Qed.

Lemma current_key_log (ev : event) (st : state) :
  current_key (log ev st) = current_key st.
Proof.
  unfold current_key, _calc_key. destruct st as [key c s t]; cbn.
  destruct (key_set key); cbn; [done|]. by destruct (derive_key c).
Qed.

Lemma document_log (k : bytes) (ev : event) (st : state) :
  document k (log ev st) = document k st.
Proof. done. Qed.

(** One call of [append] whose script reaches the card, on a vault that
    reads as the list [l]: it ends by its [return], and the file then
    holds the encryption of [l] with the new entry at the end. *)
Lemma append_run (script : list slot) (r : Saved) (st : state)
    (k : bytes) (l : list json) :
  reaches_card script = true →
  current_key st = Some k → length k = 32 →
  document k st = JList l →
  ∃ st', append script r st = (Ok Stored, st')
       ∧ self_key st' = Some k
       ∧ vault st' = Some (ctr_xor k 0 (dumps (JList (l ++ [entry r])))).
Proof.
  revert st. induction script as [|s script IH]; intros st Hreach Hcur Hk Hdoc;
    [done|].
  destruct s as [|ch].
  - clear IH. cbn. unfold mbind at 1, M_bind at 1, emit at 1, modify.
    unfold try_except_missing, mbind at 1, M_bind at 1.
    rewrite (append_body_run _ k l); [|by rewrite current_key_log|done|done].
    cbn. eexists. split; [done|]. split; [done|].
    unfold vault. cbn. apply lookup_insert_eq.
  - cbn in Hreach. apply andb_true_iff in Hreach as [Hch Hreach].
    apply negb_true_iff, bool_decide_eq_false in Hch.
    rewrite append_retry by done.
    apply IH; [done| |done|done]. by rewrite !current_key_log.
Qed.

(** Conversely, a call that ended by its [return] had a script that
    reaches the card. *)
Lemma append_stored_reaches (script : list slot) (r : Saved) (st st' : state) :
  append script r st = (Ok Stored, st') → reaches_card script = true.
Proof.
  revert st. induction script as [|s script IH]; intros st Hrun; [done|].
  destruct s as [|ch]; [done|]. cbn [reaches_card].
  destruct (decide (ch = "x")) as [->|Hch]; [done|].
  rewrite append_retry in Hrun by done.
  rewrite bool_decide_eq_false_2 by done. by apply IH in Hrun.
Qed.

(** The typed view reads back the entries that [append] writes. *)
Lemma as_saved_list_entries (rs : list Saved) :
  as_saved_list (entries rs) = Some rs.
Proof.
  unfold as_saved_list, entries. apply mapM_Some_2.
  apply Forall2_fmap_l, Forall_Forall2_diag, Forall_forall.
  intros [x p] _. unfold as_saved, entry, compose. cbn [xfp pw].
  rewrite lookup_insert_eq, lookup_insert_ne by done.
  by rewrite lookup_insert_eq.
Qed.

End StorageProperties.

(** ** Writing and reading back *)

Section VaultClaims.
Context `{Platform}.

(** C4.  Under a 32-byte key, what [_read] returns after the whole
    list of entries was serialized, encrypted with a new cipher object
    and written is that list, entry for entry and in order.  The list
    may be empty as well; [ujson] is asked to read back what it wrote
    for this list. *)
Theorem C4_write_then_read (st : state) (k : bytes) (rs : list Saved) :
  self_key st = Some k → length k = 32 →
  loads (dumps (entries rs)) = Ok (entries rs) →
  ∃ st', write_all (entries rs) st = (Ok (), st')
       ∧ _read st' = (Ok (entries rs), st').
Proof.
  intros Hkey Hk Hjson. eexists. split; [by apply write_all_run|].
  rewrite (_read_document _ k) by done. f_equal. f_equal.
  unfold document. rewrite vault_set_files, ctr_xor_involutive.
  by rewrite Hjson.
Qed.

(** The invariant of a sequence of appends: the file reads as the
    entries appended so far. *)
Lemma append_each_run (todo : list (list slot * Saved)) (done_ : list Saved)
    (st : state) (k : bytes) :
  current_key st = Some k → length k = 32 →
  document k st = entries done_ →
  Forall (λ op, reaches_card op.1 = true) todo →
  (∀ n, loads (dumps (entries (done_ ++ take n todo.*2)))
        = Ok (entries (done_ ++ take n todo.*2))) →
  ∃ st', append_each todo st = (Ok true, st')
       ∧ current_key st' = Some k
       ∧ (todo ≠ [] → self_key st' = Some k)
       ∧ (todo ≠ [] →
          vault st' = Some (ctr_xor k 0 (dumps (entries (done_ ++ todo.*2)))))
       ∧ document k st' = entries (done_ ++ todo.*2).
Proof.
  revert done_ st.
  induction todo as [|[script r] todo IH]; intros done_ st Hcur Hk Hdoc Hscripts Hjson.
  - exists st. cbn. rewrite app_nil_r. done.
  - apply Forall_cons in Hscripts as [Hscript Hscripts]. cbn in Hscript.
    destruct (append_run script r st k (entry <$> done_))
      as (st1 & Hrun & Hkey1 & Hvault1); [done..|].
    assert (entry <$> done_ ++ [r] = (entry <$> done_) ++ [entry r]) as Hsnoc
      by by rewrite fmap_app.
    assert (current_key st1 = Some k) as Hcur1.
    { unfold current_key, _calc_key. by rewrite Hkey1, (key_set_32 _ Hk). }
    assert (document k st1 = entries (done_ ++ [r])) as Hdoc1.
    { unfold document. rewrite Hvault1, ctr_xor_involutive.
      specialize (Hjson 1).
      change (take 1 ((script, r) :: todo).*2) with [r] in Hjson.
      unfold entries in Hjson |- *. rewrite Hsnoc in Hjson |- *.
      by rewrite Hjson. }
    destruct (IH (done_ ++ [r]) st1) as (st' & Heach & Hcur' & Hkey' & Hvault' & Hdoc');
      [done..| |].
    { intros n. specialize (Hjson (S n)). rewrite <- app_assoc.
      exact Hjson. }
    exists st'. cbn [append_each]. unfold mbind, M_bind. rewrite Hrun.
    rewrite <- app_assoc in Hvault', Hdoc'.
    split; [done|]. split; [done|].
    destruct todo as [|op todo].
    + cbn in Heach. injection Heach as <-.
      split; [done|]. split; [|exact Hdoc']. intros _. rewrite Hvault1.
      unfold entries. change ([(script, r)].*2) with [r]. by rewrite Hsnoc.
    + split; [intros _; by apply Hkey'|]. split; [|exact Hdoc'].
      intros _. by apply Hvault'.
Qed.


(** C10.  When the vault file is there and does not decrypt to a
    document under the current key, an append that gets to the card
    replaces the file by the encryption of the one-entry list with the
    new entry: nothing of the old contents is kept. *)
Theorem C10_unreadable_vault_replaced (script : list slot) (r : Saved)
    (st : state) (k blob : bytes) (e : exn) :
  vault st = Some blob →
  current_key st = Some k → length k = 32 →
  loads (ctr_xor k 0 blob) = Raise e →
  reaches_card script = true →
  ∃ st', append script r st = (Ok Stored, st')
       ∧ vault st' = Some (ctr_xor k 0 (dumps (entries [r])))
       ∧ (loads (dumps (entries [r])) = Ok (entries [r]) →
          _read st' = (Ok (entries [r]), st')).
Proof.
  intros Hvault Hcur Hk Hbad Hreach.
  destruct (append_run script r st k []) as (st' & Hrun & Hkey' & Hvault');
    [done..| |].
  { unfold document. by rewrite Hvault, Hbad. }
  exists st'. split; [done|]. split; [done|].
  intros Hjson. rewrite (_read_document _ k) by done.
  unfold document. rewrite Hvault', ctr_xor_involutive.
  change (JList ([] ++ [entry r])) with (entries [r]). by rewrite Hjson.
Qed.


(** What [_read] returns otherwise: the parsed document as it is. *)
Lemma _read_parsed (st : state) (k blob : bytes) (j : json) :
  self_key st = Some k → length k = 32 →
  vault st = Some blob → loads (ctr_xor k 0 blob) = Ok j →
  _read st = (Ok j, st).
Proof.
  intros Hkey Hk Hvault Hj. rewrite (_read_document _ k) by done.
  unfold document. by rewrite Hvault, Hj.
Qed.

End VaultClaims.

(** ** Without a key *)

Section NoKey.
Context `{Platform}.

Lemma read_all_no_key (st : state) :
  current_key st = None →
  read_all st = (Ok (JList []), set_key None st).
Proof.
  intros Hcur. unfold read_all, mbind, M_bind, gets.
  by rewrite (_calc_key_none _ Hcur).
Qed.

Lemma append_body_no_key (r : Saved) (st : state) :
  current_key st = None →
  append_body r st = (Raise TypeError, set_key None st).
Proof.
  intros Hcur. unfold append_body, mbind at 1, M_bind at 1.
  by rewrite (read_all_no_key _ Hcur).
Qed.

Lemma append_no_key (script : list slot) (r : Saved) (st : state) :
  current_key st = None →
  files (card (append script r st).2) = files (card st)
  ∧ (reaches_card script = true → (append script r st).1 = Raise TypeError).
Proof.
  revert st. induction script as [|s script IH]; intros st Hcur; [done|].
  destruct s as [|ch].
  - cbn [append]. run_M.
    rewrite append_body_no_key by by rewrite current_key_log. done.
  - destruct (decide (ch = "x")) as [->|Hch].
    + split; [done|]. cbn. done.
    + rewrite append_retry by done.
      destruct (IH (log NeedsMicrosd (log (Fullscreen "Saving...") st)))
        as [Hfiles Hraise]; [by rewrite !current_key_log|].
      split; [done|]. cbn. rewrite bool_decide_eq_false_2 by done. done.
Qed.

Lemma make_menu_data_no_key (s : slot) (st : state) :
  current_key st = None →
  ∃ st', make_menu_data s st = (Ok None, st') ∧ files (card st') = files (card st).
Proof.
  intros Hcur. destruct s as [|ch]; [|by exists st].
  unfold make_menu_data. run_M.
  destruct (file_exists _ st); cbn -[_calc_key]; [|by exists st].
  rewrite (_calc_key_none _ Hcur). cbn. by eexists.
Qed.

(** C6, as the code has it.  When no key can be had, the read step of
    [append] gives the empty list and [make_menu] gives no menu, neither
    raising; [append] never changes the files, and a call that gets to
    the card stops at the construction of the cipher object, with a
    [TypeError] that leaves [append]. *)
Theorem C6_key_unavailable (script : list slot) (r : Saved) (s : slot)
    (st : state) :
  current_key st = None →
  (∃ st', read_all st = (Ok (JList []), st')
        ∧ files (card st') = files (card st))
  ∧ (∃ st', make_menu_data s st = (Ok None, st')
          ∧ files (card st') = files (card st))
  ∧ files (card (append script r st).2) = files (card st)
  ∧ (reaches_card script = true → (append script r st).1 = Raise TypeError).
Proof.
  intros Hcur. split; [|split].
  - eexists. split; [by apply read_all_no_key|done].
  - by apply make_menu_data_no_key.
  - by apply append_no_key.
Qed.

End NoKey.

(** ** The counter of the cipher *)

Section Counter.
Context `{Platform}.

(** C9, as the code has it.  Every write builds its cipher object from
    the key alone, so every write starts at the same counter: under the
    same key the same document is written as the same bytes, whatever
    else the two states hold. *)
Theorem C9_counter_reused (st1 st2 : state) (k : bytes) (data : json) :
  self_key st1 = Some k → self_key st2 = Some k → length k = 32 →
  (∃ c1 c2, AES_new Encrypt (self_key st1) = Ok c1
          ∧ AES_new Encrypt (self_key st2) = Ok c2
          ∧ aes_pos c1 = 0 ∧ aes_pos c2 = 0)
  ∧ ∃ msg, vault (write_all data st1).2 = Some msg
         ∧ vault (write_all data st2).2 = Some msg.
Proof.
  intros Hkey1 Hkey2 Hk. split.
  - rewrite Hkey1, Hkey2, (AES_new_32 _ _ Hk). by eexists _, _.
  - exists (ctr_xor k 0 (dumps data)).
    rewrite !(write_all_run _ k) by done. cbn [snd].
    by rewrite !vault_set_files.
Qed.

End Counter.

(** ** The selection handler *)

Section Selection.
Context `{Platform}.
Import Hint.



(** The first thing [doit] does is to pass on the secret of
    [data[idx]]. *)
Lemma doit_applies_indexed (data : list Saved) (idx : nat) (d : Saved)
    (st : state) :
  data !! idx = Some d →
  ∃ rest, trace (doit data idx st).2 = trace st ++ SetPassphrase (pw d) :: rest.
Proof.
  intros Hd. unfold doit, index, apply_passphrase. rewrite Hd. run_M.
  destruct (set_bip39_passphrase (pw d) (settings st)) as [err s'].
  destruct (is_error err); run_M.
  { eexists. by rewrite <- app_assoc. }
  destruct (settings_b39skip s'); run_M;
    destruct (bool_decide (settings_xfp s' = xfp d)); run_M;
    eexists; rewrite <- ?app_assoc; done.
Qed.

(** C8, as the code has it.  When the passphrase of the chosen entry
    was applied without an error message and the identity then active
    is not the one stored with the entry, [doit] stops at its [assert]:
    an [AssertionError] leaves the handler, no story is shown and the
    top menu is not entered.  The secret passed on is the one of the
    chosen entry, and the skip flag is set. *)
Theorem C8_mismatch_fails_assertion (data : list Saved) (idx : nat)
    (d : Saved) (st : state) (err : option string) (s' : Settings) :
  data !! idx = Some d →
  set_bip39_passphrase (pw d) (settings st) = (err, s') →
  is_error err = false →
  settings_xfp s' ≠ xfp d →
  ∃ st', doit data idx st = (Raise AssertionError, st')
       ∧ trace st' = trace st ++ [SetPassphrase (pw d)]
       ∧ settings st' = {| settings_xfp := settings_xfp s';
                           settings_b39skip := true |}
       ∧ card st' = card st
       ∧ self_key st' = self_key st.
Proof.
  intros Hd Hset Herr Hne. unfold doit, index, apply_passphrase.
  rewrite Hd. run_M. rewrite Hset, Herr. run_M.
  destruct s' as [x skip]; cbn in *.
  destruct skip; run_M; rewrite bool_decide_eq_false_2 by done; run_M;
    by eexists.
Qed.

End Selection.

(** ** The statements on the concrete platform *)

Section OnSample.
Import Sample Hint.

Example append_twice_then_read :
  let ops := [([CardAbsent "y"; CardPresent], alpha); ([CardPresent], bravo)] in
  (append_each ops fresh).1 = Ok true
  ∧ (_read (append_each ops fresh).2).1 = Ok (entries [alpha; bravo]).
Proof. vm_compute. done. Qed.

(** Two appends, then the menu: the document that [make_menu] reads is
    the two entries, and the labels are made from them. *)
Example append_twice_then_menu :
  let ops := [([CardPresent], alpha); ([CardAbsent "y"; CardPresent], bravo)] in
  let st := (append_each ops fresh).2 in
  (make_menu_data CardPresent st).1 = Ok (Some (entries [alpha; bravo]))
  ∧ as_saved_list (entries [alpha; bravo]) = Some [alpha; bravo]
  ∧ label <$> make_menu_items [alpha; bravo] = ["a****"; "b****"].
Proof. vm_compute. done. Qed.

Example no_menu_without_file :
  (make_menu_data CardPresent fresh).1 = Ok None
  ∧ (make_menu_data (CardAbsent "y") fresh).1 = Ok None
  ∧ (make_menu_data CardPresent garbled).1 = Ok None.
Proof. vm_compute. done. Qed.

Example append_cancelled :
  (append [CardAbsent "y"; CardAbsent "x"; CardPresent] alpha fresh).1 = Ok GaveUp
  ∧ vault (append [CardAbsent "y"; CardAbsent "x"; CardPresent] alpha fresh).2
    = None.
Proof. vm_compute. done. Qed.

Example restore_matching :
  (doit [alpha] 0 fresh).1 = Ok ()
  ∧ trace (doit [alpha] 0 fresh).2
    = [SetPassphrase "alpha";
       ShowStory "Passphrase restored." "[0F056943]"; GotoTopMenu].
Proof. vm_compute. done. Qed.

(** C1, at a list that stores one secret twice.  The menu has two
    items, the second labelled from ["bravo"]; choosing it calls [doit]
    with index 1, which passes on [data[1]], the second ["alpha"]. *)
Theorem C1_duplicate_shifts_selection :
  let data := [alpha; alpha; bravo] in
  label <$> make_menu_items data = ["a****"; "b****"]
  ∧ labelled_secret data 1 = Some "bravo"
  ∧ applied_secret data 1 = Some "alpha"
  ∧ trace (select (make_menu_items data) 1 fresh).2
    = [SetPassphrase "alpha";
       ShowStory "Passphrase restored." "[0F056943]"; GotoTopMenu].
Proof. vm_compute. done. Qed.

Lemma C4_write_then_read_witness :
  ∃ st', write_all (entries [alpha; bravo]) keyed = (Ok (), st')
       ∧ _read st' = (Ok (entries [alpha; bravo]), st').
Proof.
  apply (C4_write_then_read keyed card_key [alpha; bravo]).
  - reflexivity.
  - reflexivity.
  - vm_compute. reflexivity.
Defined.



Lemma C10_unreadable_vault_replaced_witness :
  ∃ st', append [CardPresent] alpha garbled = (Ok Stored, st')
       ∧ vault st' = Some (ctr_xor card_key 0 (dumps (entries [alpha])))
       ∧ (loads (dumps (entries [alpha])) = Ok (entries [alpha]) →
          _read st' = (Ok (entries [alpha]), st')).
Proof.
  apply (C10_unreadable_vault_replaced [CardPresent] alpha garbled card_key
           [1; 2; 3]%Z ValueError).
  - reflexivity.
  - vm_compute. reflexivity.
  - reflexivity.
  - vm_compute. reflexivity.
  - reflexivity.
Defined.

(** C6 fails for the write: on a card whose identity cannot be read,
    [append] does not return. *)
Lemma C6_append_raises_without_key :
  current_key keyless = None
  ∧ ¬ ∃ o st', append [CardPresent] alpha keyless = (Ok o, st').
Proof.
  split; [vm_compute; reflexivity|].
  intros (o & st' & Hrun). vm_compute in Hrun. discriminate.
Qed.

Lemma C6_key_unavailable_witness :
  (∃ st', read_all keyless = (Ok (JList []), st')
        ∧ files (card st') = files (card keyless))
  ∧ (∃ st', make_menu_data CardPresent keyless = (Ok None, st')
          ∧ files (card st') = files (card keyless))
  ∧ files (card (append [CardPresent] alpha keyless).2) = files (card keyless)
  ∧ (reaches_card [CardPresent] = true →
     (append [CardPresent] alpha keyless).1 = Raise TypeError).
Proof.
  apply (C6_key_unavailable [CardPresent] alpha CardPresent keyless).
  vm_compute. reflexivity.
Defined.

(** C9 fails: two writes of the same document under the same key, one
    after the other, start their ciphers at the same counter and leave
    the same bytes in the file. *)
Lemma C9_same_bytes_twice :
  let data := entries [alpha] in
  let st1 := (write_all data keyed).2 in
  let st2 := (write_all data st1).2 in
  AES_new Encrypt (self_key keyed) = AES_new Encrypt (self_key st1)
  ∧ is_Some (vault st1)
  ∧ vault st1 = vault st2.
Proof. vm_compute. split; [done|]. split; [by eexists|done]. Qed.

Lemma C9_counter_reused_witness :
  (∃ c1 c2, AES_new Encrypt (self_key keyed) = Ok c1
          ∧ AES_new Encrypt (self_key keyed_garbled) = Ok c2
          ∧ aes_pos c1 = 0 ∧ aes_pos c2 = 0)
  ∧ ∃ msg, vault (write_all (entries [alpha]) keyed).2 = Some msg
         ∧ vault (write_all (entries [alpha]) keyed_garbled).2 = Some msg.
Proof.
  apply (C9_counter_reused keyed keyed_garbled card_key (entries [alpha]));
    reflexivity.
Defined.

(** C8 fails: the entry was stored under identity 7, the identity
    active once its passphrase is applied is 3; [doit] raises and shows
    no story. *)
Lemma C8_mismatch_shows_no_story :
  (doit [other] 0 fresh).1 = Raise AssertionError
  ∧ ∀ msg title, ShowStory msg title ∉ trace (doit [other] 0 fresh).2.
Proof.
  split; [vm_compute; reflexivity|].
  intros msg title Hin. vm_compute in Hin.
  apply list_elem_of_singleton in Hin. discriminate.
Qed.

Lemma C8_mismatch_fails_assertion_witness :
  ∃ st', doit [other] 0 fresh = (Raise AssertionError, st')
       ∧ trace st' = trace fresh ++ [SetPassphrase (pw other)]
       ∧ settings st' = {| settings_xfp := 3; settings_b39skip := true |}
       ∧ card st' = card fresh
       ∧ self_key st' = self_key fresh.
Proof.
  apply (C8_mismatch_fails_assertion [other] 0 other fresh None
           {| settings_xfp := 3; settings_b39skip := false |}).
  - reflexivity.
  - reflexivity.
  - reflexivity.
  - discriminate.
Defined.

End OnSample.

(** * Part III: further properties *)

(** ** Strings as lists of characters *)

Section Chars.

Lemma chars_inj (s1 s2 : string) : chars s1 = chars s2 → s1 = s2.
Proof.
  intros Heq. rewrite <- (String.string_of_list_ascii_of_string s1).
  rewrite <- (String.string_of_list_ascii_of_string s2). by rewrite Heq.
Qed.

Lemma chars_length (s : string) : length (chars s) = len s.
Proof. induction s as [|c s IH]; simpl; congruence. Qed.

Lemma chars_app (s1 s2 : string) : chars (s1 +:+ s2) = chars s1 ++ chars s2.
Proof.
  induction s1 as [|c s1 IH]; [reflexivity|].
  change (chars (String c s1 +:+ s2)) with (c :: chars (s1 +:+ s2)).
  by rewrite IH.
Qed.

Lemma chars_stars (k : nat) : chars (stars k) = replicate k "*"%char.
Proof. induction k as [|k IH]; simpl; congruence. Qed.

Lemma chars_substring (n m : nat) (s : string) :
  chars (String.substring n m s) = take m (drop n (chars s)).
Proof.
  revert n m. induction s as [|c s IH]; intros [|n] [|m]; simpl;
    rewrite ?IH; done.
Qed.

Lemma chars_get (j : nat) (s : string) : String.get j s = chars s !! j.
Proof.
  revert j. induction s as [|c s IH]; intros [|j]; simpl; auto.
Qed.

Lemma masked_minus (N : nat) (i : string) : masked N i = len i - N.
Proof. unfold masked. case_decide; lia. Qed.

Lemma chars_prefix_part (N : nat) (i : string) :
  chars (Hint.prefix_part N i)
  = take N (chars i) ++ replicate (len i - N) "*"%char.
Proof.
  unfold Hint.prefix_part, slice_to.
  by rewrite chars_app, chars_substring, chars_stars, masked_minus.
Qed.

Lemma chars_suffix_part (N : nat) (i : string) :
  chars (Hint.suffix_part N i)
  = replicate (len i - N) "*"%char ++ drop (len i - N) (chars i).
Proof.
  unfold Hint.suffix_part, slice_last.
  rewrite chars_app, chars_substring, chars_stars, masked_minus.
  f_equal. apply take_ge. rewrite length_drop, chars_length. lia.
Qed.

End Chars.

(** ** More on the hint labels *)

Section HintExtras.
Import Hint.

Lemma part_length (v : variant) (N : nat) (i : string) :
  len (part v N i) = len i.
Proof.
  rewrite <- !chars_length. destruct v; cbn [part].
  - rewrite chars_prefix_part, length_app, length_take, length_replicate.
    rewrite chars_length. lia.
  - rewrite chars_suffix_part, length_app, length_drop, length_replicate.
    rewrite chars_length. lia.
Qed.

Lemma part_short (v : variant) (N : nat) (i : string) :
  len i ≤ N → part v N i = i.
Proof.
  intros Hle. apply chars_inj. destruct v; cbn [part].
  - rewrite chars_prefix_part. replace (len i - N) with 0 by lia.
    rewrite take_ge by (rewrite chars_length; lia). apply app_nil_r.
  - rewrite chars_suffix_part. by replace (len i - N) with 0 by lia.
Qed.

(** The labels, whichever way the loop ends. *)
Lemma hints_cases (pws : list string) :
  (∃ N v, 1 ≤ N ≤ 7 ∧ hints pws = part v N <$> pws) ∨ hints pws = pws.
Proof.
  unfold hints, range_1_8.
  destruct (hint_loop_seq 7 1 pws) as [(N & v & HN & Heq & _)|[Heq _]].
  - left. exists N, v. split; [lia|done].
  - by right.
Qed.

Lemma NoDup_fmap_eq {A B} (g : A → B) (l : list A) (x y : A) :
  NoDup (g <$> l) → x ∈ l → y ∈ l → g x = g y → x = y.
Proof.
  intros Hnd [i Hi]%list_elem_of_lookup [j Hj]%list_elem_of_lookup Hg.
  assert (i = j) as ->.
  { eapply NoDup_lookup; [exact Hnd| |].
    - rewrite list_lookup_fmap, Hi. done.
    - rewrite list_lookup_fmap, Hj. cbn. by rewrite Hg. }
  congruence.
Qed.

(** The members and the length of what the loop collects. *)
Lemma collect_members (data : list Saved) (acc : list string) :
  (∀ s, s ∈ collect data acc ↔ s ∈ acc ∨ s ∈ pw <$> data)
  ∧ length (collect data acc) ≤ length acc + length data.
Proof.
  revert acc. induction data as [|i data IH]; intros acc; cbn [collect].
  - split; [|cbn; lia]. intros s. rewrite fmap_nil, elem_of_nil. tauto.
  - rewrite fmap_cons. cbn [length].
    destruct (decide (pw i ∈ acc)) as [Hin|Hnin].
    + destruct (IH acc) as [Hmem Hlen]. split; [|lia].
      intros s. rewrite Hmem, elem_of_cons. intuition (subst; auto).
    + destruct (IH (acc ++ [pw i])) as [Hmem Hlen]. split.
      * intros s.
        rewrite Hmem, elem_of_app, list_elem_of_singleton, elem_of_cons.
        tauto.
      * rewrite length_app in Hlen. cbn in Hlen. lia.
Qed.

(** When nothing was dropped, there was no repeat. *)
Lemma collect_full (data : list Saved) (acc : list string) :
  length (collect data acc) = length acc + length data →
  collect data acc = acc ++ (pw <$> data).
Proof.
  revert acc. induction data as [|i data IH]; intros acc Hlen; cbn [collect] in *.
  - by rewrite app_nil_r.
  - cbn [length] in Hlen. destruct (decide (pw i ∈ acc)) as [Hin|Hnin].
    + destruct (collect_members data acc) as [_ Hle]. lia.
    + rewrite IH; [by rewrite <- app_assoc|].
      rewrite length_app. cbn. lia.
Qed.

(** X1.  The list [pws] that [make_menu] builds has every stored secret
    once: it has no repeats, it has the same members as the secrets of
    [data], and it is no longer than [data]. *)
Theorem X1_pws_distinct_same_members (data : list Saved) :
  NoDup (pws_of data)
  ∧ (∀ s, s ∈ pws_of data ↔ s ∈ pw <$> data)
  ∧ length (pws_of data) ≤ length data.
Proof.
  unfold pws_of. destruct (collect_members data []) as [Hmem Hlen].
  split; [apply collect_NoDup, NoDup_nil_2|]. split; [|done].
  intros s. rewrite Hmem, elem_of_nil. tauto.
Qed.

(** X2.  Every label is as long as the secret it stands for: the mask
    fills up to the length of the secret, whichever variant and [N] the
    loop settles on. *)
Theorem X2_labels_keep_length (pws : list string) :
  len <$> hints pws = len <$> pws.
Proof.
  destruct (hints_cases pws) as [(N & v & _ & ->)| ->]; [|done].
  rewrite <- list_fmap_compose. apply list_fmap_ext.
  intros _ s _. apply part_length.
Qed.

(** X3.  A secret of at most one character is never masked: its label
    is the secret itself. *)
Theorem X3_short_secret_unmasked (pws : list string) (idx : nat) (s : string) :
  pws !! idx = Some s → len s ≤ 1 → hints pws !! idx = Some s.
Proof.
  intros Hs Hlen.
  destruct (hints_cases pws) as [(N & v & HN & ->)| ->]; [|done].
  rewrite list_lookup_fmap, Hs. cbn. f_equal. apply part_short. lia.
Qed.

(** X4.  With a single secret the label is its first character followed
    by one star for each further character. *)
Theorem X4_single_secret (s : string) :
  hints [s] = [prefix_part 1 s]
  ∧ chars (prefix_part 1 s) = take 1 (chars s) ++ replicate (len s - 1) "*"%char.
Proof.
  split; [|apply chars_prefix_part].
  unfold hints, range_1_8. cbn [seq hint_loop]. unfold parts_of.
  rewrite (proj2 (all_unique_NoDup (part Prefix 1) [s])); [done|].
  apply NoDup_singleton.
Qed.

(** X5.  When the secrets have pairwise different lengths, the first
    try already passes: every label shows one character, the first. *)
Theorem X5_distinct_lengths_one_char (pws : list string) :
  NoDup (len <$> pws) → hints pws = prefix_part 1 <$> pws.
Proof.
  intros Hlen. unfold hints, range_1_8. cbn [seq hint_loop]. unfold parts_of.
  rewrite (proj2 (all_unique_NoDup (part Prefix 1) pws)); [done|].
  apply (NoDup_fmap_1 len). rewrite <- list_fmap_compose.
  erewrite list_fmap_ext; [exact Hlen|]. intros _ s _. apply (part_length Prefix).
Qed.

(** X6.  What the two fragments show for [N] from 1 on, position by
    position: the prefix fragment has the secret's own characters before
    position [N] and a star at every later position of the secret; the
    suffix fragment has a star at every position but the last [N], where
    it has the secret's own. *)
Theorem X6_fragment_positions (N j : nat) (i : string) :
  1 ≤ N →
  String.get j (prefix_part N i)
  = (if decide (j < N) then String.get j i
     else if decide (j < len i) then Some "*"%char else None)
  ∧ String.get j (suffix_part N i)
    = (if decide (j < len i - N) then Some "*"%char else String.get j i).
Proof.
  intros _. rewrite !chars_get, chars_prefix_part, chars_suffix_part.
  pose proof (chars_length i) as Hlen. split.
  - case_decide as HjN.
    + destruct (decide (j < len i)) as [Hj|Hj].
      * rewrite lookup_app_l by (rewrite length_take; lia).
        by rewrite lookup_take_lt.
      * rewrite (lookup_ge_None_2 (chars i)) by lia.
        apply lookup_ge_None_2.
        rewrite length_app, length_take, length_replicate. lia.
    + case_decide as Hj.
      * rewrite lookup_app_r by (rewrite length_take; lia).
        apply lookup_replicate_2. rewrite length_take. lia.
      * apply lookup_ge_None_2.
        rewrite length_app, length_take, length_replicate. lia.
  - case_decide as Hj.
    + rewrite lookup_app_l by (rewrite length_replicate; lia).
      by apply lookup_replicate_2.
    + rewrite lookup_app_r by (rewrite length_replicate; lia).
      rewrite length_replicate, lookup_drop. f_equal. lia.
Qed.

(** X7.  Two different secrets of the same length that agree on their
    first seven and on their last seven characters cannot be told apart
    by any fragment, and the menu then shows every secret in full. *)
Theorem X7_give_up_shows_all (pws : list string) (s1 s2 : string) :
  s1 ∈ pws → s2 ∈ pws → s1 ≠ s2 →
  len s1 = len s2 →
  slice_to 7 s1 = slice_to 7 s2 →
  slice_last 7 s1 = slice_last 7 s2 →
  hints pws = pws.
Proof.
  intros H1 H2 Hne Hlen Hpre Hsuf. unfold hints, range_1_8.
  destruct (hint_loop_seq 7 1 pws) as [(N' & v' & HN' & _ & Hnd & _)|[Heq _]];
    [|done].
  exfalso. apply Hne.
  apply (NoDup_fmap_eq (part v' N') pws s1 s2 Hnd H1 H2).
  apply chars_inj.
  apply (f_equal chars) in Hpre, Hsuf. unfold slice_to, slice_last in Hpre, Hsuf.
  rewrite !chars_substring in Hpre, Hsuf. rewrite drop_0 in Hpre.
  rewrite !take_ge in Hsuf by (rewrite length_drop, chars_length; lia).
  destruct v'; cbn [part].
  - rewrite !chars_prefix_part, Hlen. f_equal.
    replace N' with (N' `min` 7) by lia. rewrite <- !take_take. by rewrite Hpre.
  - rewrite !chars_suffix_part, Hlen. f_equal.
    rewrite Hlen in Hsuf.
    replace (len s2 - N') with ((len s2 - 7) + ((len s2 - N') - (len s2 - 7))) by lia.
    rewrite <- !drop_drop. by rewrite Hsuf.
Qed.

End HintExtras.

(** ** More on the vault file *)

Section StorageExtras.
Context `{Platform}.

Lemma AES_new_not_missing (dir : direction) (key : option bytes) (e : exn) :
  AES_new dir key = Raise e → e ≠ CardMissingError.
Proof.
  unfold AES_new. destruct key as [k|]; [|by intros [= <-]].
  case_bool_decide; [done|by intros [= <-]].
Qed.

Lemma _read_cases (st : state) :
  (∃ e, e ≠ CardMissingError ∧ _read st = (Raise e, st))
  ∨ (∃ j, _read st = (Ok j, st)).
Proof.
  unfold _read. run_M.
  destruct (AES_new Decrypt (self_key st)) as [c|e] eqn:Hnew.
  - right. unfold read_file. cbn.
    destruct (files (card st) !! filename (card st)) as [blob|]; cbn; [|by eexists].
    destruct (loads _); by eexists.
  - left. exists e. split; [by eapply AES_new_not_missing|done].
Qed.

Lemma _calc_key_effect (st : state) :
  ∃ k', _calc_key st = (Ok (), set_key k' st).
Proof.
  unfold _calc_key. destruct (key_set (self_key st)).
  - exists (self_key st). by destruct st.
  - destruct (derive_key (card st)); by eexists.
Qed.

(** What one pass through the [with] block can do to the state: nothing
    to the settings and the display, nothing to the card but the vault
    file, and nothing to the files at all when it raises; it never raises
    [CardMissingError]. *)
Lemma append_body_effect (r : Saved) (st : state) :
  ∃ res st', append_body r st = (res, st')
    ∧ res ≠ Raise CardMissingError
    ∧ settings st' = settings st
    ∧ trace st' = trace st
    ∧ sd_root (card st') = sd_root (card st)
    ∧ id_hash (card st') = id_hash (card st)
    ∧ (∀ path, path ≠ filename (card st) →
         files (card st') !! path = files (card st) !! path)
    ∧ (∀ e, res = Raise e → files (card st') = files (card st)).
Proof.
  unfold append_body, read_all. run_M.
  destruct (_calc_key_effect st) as [k' ->]. cbn -[_read key_set].
  destruct ((if key_set k' then _read else λ st0 : state, (Ok (JList []), st0))
              (set_key k' st)) as [res1 st1] eqn:Hread.
  assert (st1 = set_key k' st ∧ res1 ≠ Raise CardMissingError) as [-> Hres1].
  { destruct (key_set k').
    - destruct (_read_cases (set_key k' st)) as [(e & He & Heq)|(j & Heq)];
        rewrite Heq in Hread; injection Hread as <- <-; split; congruence.
    - by injection Hread as <- <-. }
  destruct res1 as [j|e].
  2: { eexists _, _. split; [reflexivity|]. cbn. repeat split; try done.
       intros [= ->]. by apply Hres1. }
  destruct (list_append j (entry r)) as [j'|e] eqn:Happ; cbn.
  2: { destruct j; cbn in Happ; try discriminate; injection Happ as <-;
       eexists _, _; (split; [reflexivity|]); cbn; by repeat split. }
  unfold write_all. run_M.
  destruct (AES_new Encrypt k') as [c|e] eqn:Hnew; cbn.
  - eexists _, _. split; [reflexivity|]. cbn. repeat split; try done.
    intros path Hne. by rewrite lookup_insert_ne.
  - eexists _, _. split; [reflexivity|]. cbn. repeat split; try done.
    intros [= ->]. by eapply AES_new_not_missing.
Qed.

Lemma append_present_run (rest : list slot) (r : Saved) (st st1 : state)
    (res : result ()) :
  append_body r (log (Fullscreen "Saving...") st) = (res, st1) →
  res ≠ Raise CardMissingError →
  append (CardPresent :: rest) r st
  = match res with
    | Ok _ => (Ok Stored, log (DramaticPause "Saved." 2) st1)
    | Raise e => (Raise e, st1)
    end.
Proof.
  intros Hbody Hres. cbn [append]. run_M. rewrite Hbody.
  destruct res as [[]|e]; [done|]. by destruct e.
Qed.

(** X8.  [_calc_key] never raises and changes nothing but [self.key].
    A key that is held and not empty is kept as it is, whatever card is
    in the slot.  Otherwise [self.key] becomes [None], or a 32-byte key
    that [encryption_key] returned for the card's identity hash. *)
Theorem X8_calc_key_outcome (st : state) :
  ∃ st', _calc_key st = (Ok (), st')
    ∧ card st' = card st ∧ settings st' = settings st ∧ trace st' = trace st
    ∧ ((key_set (self_key st) = true ∧ self_key st' = self_key st)
       ∨ (key_set (self_key st) = false
          ∧ (self_key st' = None
             ∨ ∃ salt k, id_hash (card st) = Ok salt
                 ∧ encryption_key salt = Ok k
                 ∧ length k = 32
                 ∧ self_key st' = Some k))).
Proof.
  unfold _calc_key, derive_key. destruct (key_set (self_key st)) eqn:Hset.
  { exists st. auto 10. }
  destruct (id_hash (card st)) as [salt|e]; [|eexists; cbn; auto 10].
  destruct (encryption_key salt) as [k|e] eqn:Henc; [|eexists; cbn; auto 10].
  case_bool_decide; eexists; cbn; [|auto 10].
  do 4 (split; [done|]). right. split; [done|]. right. by exists salt, k.
Qed.

(** X9.  [_read] is not silent when there is no key: with [self.key]
    at [None] the cipher object cannot be built, and the exception
    leaves [_read] before the file is looked at. *)
Theorem X9_read_without_key_raises (st : state) :
  self_key st = None → _read st = (Raise TypeError, st).
Proof. intros Hkey. unfold _read. run_M. by rewrite Hkey. Qed.

(** X10.  [append] touches no file but the vault file: every other file
    of the card is as before, however the call ends. *)
Theorem X10_append_other_files_untouched (script : list slot) (r : Saved)
    (st : state) (path : string) :
  path ≠ filename (card st) →
  files (card (append script r st).2) !! path = files (card st) !! path.
Proof.
  revert st. induction script as [|s script IH]; intros st Hpath; [done|].
  destruct s as [|ch].
  - destruct (append_body_effect r (log (Fullscreen "Saving...") st))
      as (res & st1 & Hbody & Hres & _ & _ & _ & _ & Hframe & _).
    rewrite (append_present_run _ _ _ _ _ Hbody Hres).
    destruct res; cbn; by apply Hframe.
  - destruct (decide (ch = "x")) as [->|Hch]; [done|].
    rewrite append_retry by done. by rewrite IH.
Qed.


(** X12.  When the vault file decrypts to a document that is not a
    list, [append] cannot add to it: a call that gets to the card raises
    [AttributeError] and leaves the files as they are. *)
Theorem X12_append_to_non_list_raises (script : list slot) (r : Saved)
    (st : state) (k : bytes) :
  reaches_card script = true →
  current_key st = Some k → length k = 32 →
  (∀ l, document k st ≠ JList l) →
  (append script r st).1 = Raise AttributeError
  ∧ files (card (append script r st).2) = files (card st).
Proof.
  revert st. induction script as [|s script IH]; intros st Hreach Hcur Hk Hdoc;
    [done|].
  destruct s as [|ch].
  - clear IH.
    assert (append_body r (log (Fullscreen "Saving...") st)
            = (Raise AttributeError,
               set_key (Some k) (log (Fullscreen "Saving...") st))) as Hbody.
    { unfold append_body, mbind at 1, M_bind at 1.
      rewrite (read_all_run _ k) by (by rewrite ?current_key_log).
      rewrite document_log. destruct (document k st); try done.
      by destruct (Hdoc l). }
    by rewrite (append_present_run _ _ _ _ _ Hbody).
  - cbn in Hreach. apply andb_true_iff in Hreach as [Hch Hreach].
    apply negb_true_iff, bool_decide_eq_false in Hch.
    rewrite append_retry by done.
    destruct (IH (log NeedsMicrosd (log (Fullscreen "Saving...") st)))
      as [Hraise Hfiles]; [done| |done|done|by split].
    by rewrite !current_key_log.
Qed.


(** X14.  The file is exactly as long as the serialized document: no
    header, no padding and no tag are written. *)
Theorem X14_file_as_long_as_document (st : state) (k : bytes) (data : json) :
  self_key st = Some k → length k = 32 →
  ∃ st' blob, write_all data st = (Ok (), st')
       ∧ vault st' = Some blob
       ∧ length blob = length (dumps data).
Proof.
  intros Hkey Hk. eexists _, _. split; [by apply write_all_run|].
  split; [apply vault_set_files|]. apply ctr_xor_length.
Qed.

(** X15.  Two documents whose serializations begin with the same [n]
    bytes are written, under the same key, as files that begin with the
    same [n] bytes. *)
Theorem X15_equal_prefix_shows (st1 st2 : state) (k : bytes) (d1 d2 : json)
    (n : nat) :
  self_key st1 = Some k → self_key st2 = Some k → length k = 32 →
  take n (dumps d1) = take n (dumps d2) →
  ∃ b1 b2, vault (write_all d1 st1).2 = Some b1
         ∧ vault (write_all d2 st2).2 = Some b2
         ∧ take n b1 = take n b2.
Proof.
  intros Hkey1 Hkey2 Hk Hpre. eexists _, _.
  rewrite !(write_all_run _ k) by done. cbn [snd].
  rewrite !vault_set_files. split; [done|]. split; [done|].
  by apply ctr_xor_equal_prefix.
Qed.

(** The first part of [make_menu] with the card in place and a key to
    be had. *)
Lemma make_menu_data_run (st : state) (k : bytes) :
  current_key st = Some k → length k = 32 →
  make_menu_data CardPresent st
  = (Ok (if bool_decide (is_Some (vault st)) && truthy (document k st)
         then Some (document k st) else None),
     if bool_decide (is_Some (vault st)) then set_key (Some k) st else st).
Proof.
  intros Hcur Hk. unfold make_menu_data. run_M. unfold file_exists, vault.
  destruct (bool_decide (is_Some _)); cbn -[_calc_key _read key_set document];
    [|done].
  rewrite (_calc_key_run _ _ Hcur). cbn -[_read key_set document].
  rewrite (key_set_32 _ Hk). cbn -[_read document].
  rewrite (_read_document _ k) by done.
  change (document k (set_key (Some k) st)) with (document k st).
  by destruct (truthy (document k st)).
Qed.

(** X16.  The first part of [make_menu], when a key can be had: it
    never raises and never changes the card, the settings or the
    display; it gives the stored document when the card is in place, the
    file exists and the document read from it is true (not an empty
    list, for one), and gives nothing in every other case. *)
Theorem X16_menu_data_outcome (s : slot) (st : state) (k : bytes) :
  current_key st = Some k → length k = 32 →
  ∃ st', make_menu_data s st
         = (Ok (match s with
                | CardPresent =>
                    if bool_decide (is_Some (vault st)) && truthy (document k st)
                    then Some (document k st) else None
                | CardAbsent _ => None
                end), st')
       ∧ card st' = card st ∧ settings st' = settings st
       ∧ trace st' = trace st.
Proof.
  intros Hcur Hk. destruct s as [|ch]; [|by exists st].
  rewrite (make_menu_data_run _ k) by done.
  eexists. split; [done|]. by destruct (bool_decide _).
Qed.

(** X17.  What [append] stores, [make_menu] finds: after appends as in
    C5, the first part of [make_menu] gives the document with exactly
    the appended entries in order, and the typed view of it is the list
    of those entries. *)
Theorem X17_menu_data_after_appends (ops : list (list slot * Saved))
    (st : state) (k : bytes) :
  vault st = None →
  current_key st = Some k → length k = 32 →
  Forall (λ op, reaches_card op.1 = true) ops →
  (∀ n, loads (dumps (entries (take n ops.*2))) = Ok (entries (take n ops.*2))) →
  ops ≠ [] →
  ∃ st', append_each ops st = (Ok true, st')
       ∧ make_menu_data CardPresent st' = (Ok (Some (entries ops.*2)), st')
       ∧ as_saved_list (entries ops.*2) = Some ops.*2.
Proof.
  intros Hvault Hcur Hk Hscripts Hjson Hne.
  destruct (append_each_run ops [] st k)
    as (st' & Heach & Hcur' & Hkey' & Hvault' & Hdoc'); [done..| |done| |].
  { unfold document. by rewrite Hvault. }
  { done. }
  exists st'. split; [done|]. split; [|apply as_saved_list_entries].
  rewrite (make_menu_data_run _ k) by done.
  rewrite (Hvault' Hne), Hdoc'. cbn [app].
  rewrite bool_decide_eq_true_2 by by eexists.
  assert (truthy (entries ops.*2) = true) as ->.
  { destruct ops; [done|]. done. }
  cbn. f_equal. specialize (Hkey' Hne). destruct st'; cbn in *. by subst.
Qed.

Lemma append_give_up (rest : list slot) (r : Saved) (st : state) :
  append (CardAbsent "x" :: rest) r st
  = (Ok GaveUp, log NeedsMicrosd (log (Fullscreen "Saving...") st)).
Proof. reflexivity. Qed.

(** X24.  "Saved." is shown exactly by the calls that end by their
    [return], that is after the file was written: a call that raises,
    is given up or is still waiting never shows it. *)
Theorem X24_saved_shown_iff_stored (script : list slot) (r : Saved) (st : state) :
  ∃ evs, trace (append script r st).2 = trace st ++ evs
       ∧ (DramaticPause "Saved." 2 ∈ evs ↔ (append script r st).1 = Ok Stored).
Proof.
  revert st. induction script as [|s script IH]; intros st.
  { exists []. cbn. rewrite app_nil_r, elem_of_nil. split; [done|]. split; done. }
  destruct s as [|ch].
  - destruct (append_body_effect r (log (Fullscreen "Saving...") st))
      as (res & st1 & Hbody & Hres & _ & Htrace & _).
    rewrite (append_present_run _ _ _ _ _ Hbody Hres). cbn in Htrace.
    destruct res as [[]|e]; cbn.
    + exists [Fullscreen "Saving..."; DramaticPause "Saved." 2].
      rewrite Htrace, <- app_assoc. split; [done|]. split; [done|].
      intros _. apply elem_of_cons. right. apply list_elem_of_singleton. done.
    + exists [Fullscreen "Saving..."]. rewrite Htrace. split; [done|].
      rewrite list_elem_of_singleton. split; done.
  - destruct (decide (ch = "x")) as [->|Hch].
    + exists [Fullscreen "Saving..."; NeedsMicrosd]. rewrite append_give_up.
      cbn. rewrite <- app_assoc. split; [done|].
      rewrite elem_of_cons, list_elem_of_singleton. split; [|done].
      intros [?|?]; done.
    + rewrite append_retry by done.
      destruct (IH (log NeedsMicrosd (log (Fullscreen "Saving...") st)))
        as (evs & Htrace & Hiff).
      exists ([Fullscreen "Saving..."; NeedsMicrosd] ++ evs).
      rewrite Htrace. cbn. rewrite <- !app_assoc. split; [done|].
      rewrite <- Hiff, !elem_of_cons. split; [|auto].
      intros [?|[?|?]]; done.
Qed.

(** X25.  [_read] changes nothing, whether it returns or raises: not
    the files, not [self.key], not the settings, not the display. *)
Theorem X25_read_changes_nothing (st : state) : (_read st).2 = st.
Proof.
  destruct (_read_cases st) as [(e & _ & ->)|(j & ->)]; done.
Qed.

End StorageExtras.

(** ** More on the menu and the selection handler *)

Section SelectionExtras.
Context `{Platform}.
Import Hint.

Lemma make_menu_items_length (data : list Saved) :
  length (make_menu_items data) = length (pws_of data).
Proof.
  unfold make_menu_items. rewrite length_fmap. apply labels_distinct.
Qed.

(** X18.  When [set_bip39_passphrase] answers with an error message,
    [doit] shows that message as a story titled "Fail" and does nothing
    more: the skip flag is not touched, the owner is not checked, the
    top menu is not entered. *)
Theorem X18_doit_error_story (data : list Saved) (idx : nat) (d : Saved)
    (st : state) (e : string) (s' : Settings) :
  data !! idx = Some d →
  set_bip39_passphrase (pw d) (settings st) = (Some e, s') →
  e ≠ "" →
  doit data idx st
  = (Ok (), log (ShowStory e "Fail")
              (log (SetPassphrase (pw d)) (set_settings s' st))).
Proof.
  intros Hd Hset He. unfold doit, index, apply_passphrase. rewrite Hd. run_M.
  rewrite Hset. cbn. by rewrite bool_decide_eq_false_2 by done.
Qed.

(** X19.  When the passphrase of the chosen entry is applied without an
    error message and the identity then active is the one stored with
    the entry, [doit] returns after showing "Passphrase restored." under
    the identity as title and entering the top menu, in that order; the
    skip flag is set from then on. *)
Theorem X19_doit_restores (data : list Saved) (idx : nat) (d : Saved)
    (st : state) (err : option string) (s' : Settings) :
  data !! idx = Some d →
  set_bip39_passphrase (pw d) (settings st) = (err, s') →
  is_error err = false →
  settings_xfp s' = xfp d →
  ∃ st', doit data idx st = (Ok (), st')
       ∧ trace st' = trace st ++
           [SetPassphrase (pw d);
            ShowStory "Passphrase restored." ("[" +:+ xfp2str (xfp d) +:+ "]");
            GotoTopMenu]
       ∧ settings st' = {| settings_xfp := xfp d; settings_b39skip := true |}.
Proof.
  intros Hd Hset Herr Hxfp. unfold doit, index, apply_passphrase.
  rewrite Hd. run_M. rewrite Hset, Herr. run_M.
  destruct s' as [x skip]; cbn in *. subst x.
  destruct skip; run_M; rewrite bool_decide_eq_true_2 by done; run_M;
    eexists; (split; [done|]); cbn; rewrite <- ?app_assoc; done.
Qed.

(** X20.  [doit] never touches the card or [self.key], however it
    ends. *)
Theorem X20_doit_keeps_card_and_key (data : list Saved) (idx : nat) (st : state) :
  card (doit data idx st).2 = card st
  ∧ self_key (doit data idx st).2 = self_key st.
Proof.
  unfold doit, index, apply_passphrase.
  destruct (data !! idx) as [d|]; run_M; [|done].
  destruct (set_bip39_passphrase (pw d) (settings st)) as [err s'].
  destruct (is_error err); run_M; [done|].
  destruct (settings_b39skip s'); run_M;
    destruct (bool_decide (settings_xfp s' = xfp d)); run_M; done.
Qed.

(** X21.  The menu has one item for each distinct secret, and every
    position of the menu is a position of [data]: choosing an item runs
    [doit] on an entry that is there, so the handler's [data[idx]] never
    goes out of range. *)
Theorem X21_menu_positions_in_range (data : list Saved) (idx : nat) (st : state) :
  idx < length (make_menu_items data) →
  length (make_menu_items data) = length (pws_of data)
  ∧ (∃ d, data !! idx = Some d)
  ∧ select (make_menu_items data) idx st = doit data idx st.
Proof.
  intros Hidx. split; [apply make_menu_items_length|].
  rewrite make_menu_items_length in Hidx.
  destruct (collect_members data []) as [_ Hlen]. cbn in Hlen. split.
  - apply lookup_lt_is_Some_2. unfold pws_of in Hidx. lia.
  - unfold select, make_menu_items. rewrite list_lookup_fmap.
    destruct (labels data !! idx) as [l|] eqn:Hl; [done|].
    apply lookup_ge_None_1 in Hl.
    destruct (labels_distinct data) as [Hlab _]. lia.
Qed.


(** X23.  When a secret is stored twice, the menu has fewer items than
    there are entries, so that the entries at the end of the list can
    never be chosen. *)
Theorem X23_repeat_hides_entries (data : list Saved) :
  ¬ NoDup (pw <$> data) →
  length (make_menu_items data) < length data.
Proof.
  intros Hdup. rewrite make_menu_items_length. unfold pws_of.
  destruct (collect_members data []) as [_ Hle]. cbn in Hle.
  destruct (decide (length (collect data []) = length data)) as [Heq|Hne];
    [|lia].
  destruct Hdup. pose proof (collect_full data [] Heq) as Hfull.
  cbn [app] in Hfull. rewrite <- Hfull. apply collect_NoDup, NoDup_nil_2.
Qed.

End SelectionExtras.

(** ** The further statements on the concrete platforms *)

Section ExtrasOnSample.
Import Sample Hint.

Lemma X3_short_secret_unmasked_witness :
  hints ["a"; "abcdefghi"] !! 0 = Some "a".
Proof.
  apply (X3_short_secret_unmasked ["a"; "abcdefghi"] 0 "a").
  - reflexivity.
  - vm_compute. lia.
Defined.

Lemma X5_distinct_lengths_one_char_witness :
  hints ["ab"; "abc"; "abcd"] = prefix_part 1 <$> ["ab"; "abc"; "abcd"].
Proof.
  apply (X5_distinct_lengths_one_char ["ab"; "abc"; "abcd"]).
  apply (bool_decide_unpack _). vm_compute. exact I.
Defined.

Lemma X6_fragment_positions_witness :
  String.get 3 (prefix_part 2 "alpha")
  = (if decide (3 < 2) then String.get 3 "alpha"
     else if decide (3 < len "alpha") then Some "*"%char else None)
  ∧ String.get 3 (suffix_part 2 "alpha")
    = (if decide (3 < len "alpha" - 2) then Some "*"%char
       else String.get 3 "alpha").
Proof. apply (X6_fragment_positions 2 3 "alpha"). lia. Defined.

Lemma X7_give_up_shows_all_witness :
  hints ["aaaaaaaaXaaaaaaaa"; "zz"; "aaaaaaaaYaaaaaaaa"]
  = ["aaaaaaaaXaaaaaaaa"; "zz"; "aaaaaaaaYaaaaaaaa"].
Proof.
  apply (X7_give_up_shows_all
           ["aaaaaaaaXaaaaaaaa"; "zz"; "aaaaaaaaYaaaaaaaa"]
           "aaaaaaaaXaaaaaaaa" "aaaaaaaaYaaaaaaaa").
  - apply (bool_decide_unpack _). vm_compute. exact I.
  - apply (bool_decide_unpack _). vm_compute. exact I.
  - discriminate.
  - reflexivity.
  - reflexivity.
  - reflexivity.
Defined.

Lemma X9_read_without_key_raises_witness :
  _read fresh = (Raise TypeError, fresh).
Proof. apply (X9_read_without_key_raises fresh). reflexivity. Defined.

Lemma X10_append_other_files_untouched_witness :
  files (card (append [CardPresent] alpha Variants.shared).2) !! "/sd/notes.txt"
  = files (card Variants.shared) !! "/sd/notes.txt".
Proof.
  apply (X10_append_other_files_untouched [CardPresent] alpha Variants.shared
           "/sd/notes.txt").
  vm_compute. discriminate.
Defined.


Lemma X12_append_to_non_list_raises_witness :
  (@append Variants.scalar [CardPresent] alpha garbled).1 = Raise AttributeError
  ∧ files (card (@append Variants.scalar [CardPresent] alpha garbled).2)
    = files (card garbled).
Proof.
  apply (@X12_append_to_non_list_raises Variants.scalar [CardPresent] alpha
           garbled card_key).
  - reflexivity.
  - vm_compute. reflexivity.
  - reflexivity.
  - intros l Hl. vm_compute in Hl. discriminate.
Defined.


Lemma X14_file_as_long_as_document_witness :
  ∃ st' blob, write_all (entries [alpha; bravo]) keyed = (Ok (), st')
       ∧ vault st' = Some blob
       ∧ length blob = length (dumps (entries [alpha; bravo])).
Proof.
  apply (X14_file_as_long_as_document keyed card_key (entries [alpha; bravo]));
    reflexivity.
Defined.

Lemma X15_equal_prefix_shows_witness :
  ∃ b1 b2, vault (write_all (entries [alpha]) keyed).2 = Some b1
         ∧ vault (write_all (entries [alpha; bravo]) keyed).2 = Some b2
         ∧ take 10 b1 = take 10 b2.
Proof.
  apply (X15_equal_prefix_shows keyed keyed card_key (entries [alpha])
           (entries [alpha; bravo]) 10).
  - reflexivity.
  - reflexivity.
  - reflexivity.
  - vm_compute. reflexivity.
Defined.

Lemma X16_menu_data_outcome_witness :
  ∃ st', make_menu_data CardPresent keyed_garbled
         = (Ok (if bool_decide (is_Some (vault keyed_garbled))
                   && truthy (document card_key keyed_garbled)
                then Some (document card_key keyed_garbled) else None), st')
       ∧ card st' = card keyed_garbled ∧ settings st' = settings keyed_garbled
       ∧ trace st' = trace keyed_garbled.
Proof.
  apply (X16_menu_data_outcome CardPresent keyed_garbled card_key); reflexivity.
Defined.

Lemma X17_menu_data_after_appends_witness :
  let ops := [([CardAbsent "y"; CardPresent], alpha); ([CardPresent], bravo)] in
  ∃ st', append_each ops fresh = (Ok true, st')
       ∧ make_menu_data CardPresent st' = (Ok (Some (entries ops.*2)), st')
       ∧ as_saved_list (entries ops.*2) = Some ops.*2.
Proof.
  apply (X17_menu_data_after_appends
           [([CardAbsent "y"; CardPresent], alpha); ([CardPresent], bravo)]
           fresh card_key).
  - reflexivity.
  - vm_compute. reflexivity.
  - reflexivity.
  - repeat constructor.
  - intros [|[|[|n]]]; vm_compute; reflexivity.
  - discriminate.
Defined.

Lemma X18_doit_error_story_witness :
  @doit Variants.refusing [alpha] 0 fresh
  = (Ok (), log (ShowStory "No BIP39 seed" "Fail")
              (log (SetPassphrase (pw alpha)) (set_settings (settings fresh) fresh))).
Proof.
  apply (@X18_doit_error_story Variants.refusing [alpha] 0 alpha fresh
           "No BIP39 seed" (settings fresh)).
  - reflexivity.
  - reflexivity.
  - discriminate.
Defined.

Lemma X19_doit_restores_witness :
  ∃ st', doit [alpha] 0 fresh = (Ok (), st')
       ∧ trace st' = trace fresh ++
           [SetPassphrase (pw alpha);
            ShowStory "Passphrase restored." ("[" +:+ xfp2str (xfp alpha) +:+ "]");
            GotoTopMenu]
       ∧ settings st' = {| settings_xfp := xfp alpha; settings_b39skip := true |}.
Proof.
  apply (X19_doit_restores [alpha] 0 alpha fresh None
           {| settings_xfp := 5; settings_b39skip := false |}).
  - reflexivity.
  - reflexivity.
  - reflexivity.
  - reflexivity.
Defined.

Lemma X21_menu_positions_in_range_witness :
  length (make_menu_items [alpha; alpha; bravo]) = length (pws_of [alpha; alpha; bravo])
  ∧ (∃ d, [alpha; alpha; bravo] !! 1 = Some d)
  ∧ select (make_menu_items [alpha; alpha; bravo]) 1 fresh
    = doit [alpha; alpha; bravo] 1 fresh.
Proof.
  apply (X21_menu_positions_in_range [alpha; alpha; bravo] 1 fresh).
  vm_compute. lia.
Defined.


Lemma X23_repeat_hides_entries_witness :
  length (make_menu_items [alpha; alpha; bravo]) < length [alpha; alpha; bravo].
Proof.
  apply (X23_repeat_hides_entries [alpha; alpha; bravo]).
  apply (bool_decide_unpack _). vm_compute. exact I.
Defined.

End ExtrasOnSample.
